(** * gpd/util/system_print_color.h: ANSI colour macros

    The header is a set of preprocessor macros.  Object-like macros are
    embedded as token lists, function-like macros as functions on token
    lists, and the meaning of an expansion is given by a small model of
    what the C++ translator does with it: adjacent string literals are
    concatenated (translation phase 6), a [<<] chain headed by [std::cout]
    appends the printed form of every operand to the standard output
    stream (for a string literal, its bytes up to the first NUL, as
    [operator<<] does for a [const char] pointer), and [std::endl] appends
    a line feed. *)

From Stdlib Require Import Strings.String Strings.Ascii Lists.List Bool.Bool Lia.
Import ListNotations.

Open Scope string_scope.
Open Scope list_scope.

(** ** Tokens and their meaning *)

Module Cpp.

(** The tokens that occur in the header and in the arguments its own
    usage example passes to the macros.  [<<] is the only operator among
    them: an argument such as [+1 << "x"], whose [+] would bind to a literal
    of the macro, is not expressible. *)
Inductive token : Type :=
| TStr (s : string)   (* a narrow string literal; [s] is the bytes of the
                         array, without the terminating NUL *)
| TVal (s : string)   (* a primary expression that is not a string literal
                         and not a stream: an identifier such as [myvect],
                         an unsigned number such as [456], a parenthesised
                         expression; [s] is what [operator<<] writes for it *)
| TShl                (* [<<] *)
| TCout               (* [std::cout] *)
| TEndl               (* [std::endl] *)
| TLBrace             (* [{] *)
| TRBrace             (* [}] *)
| TSemi.              (* [;] *)

Definition tokens : Type := list token.

(** The bytes written to standard output so far. *)
Definition ostream : Type := string.

(** What a complete expression evaluates to. *)
Inductive value : Type :=
| VStr (s : string)     (* a string literal, after concatenation *)
| VVal (s : string)     (* another operand *)
| VStream.              (* the stream a [<<] chain returns *)

Definition LF : string := String "010" EmptyString.

Definition NUL : ascii := "000".

Fixpoint has_nul (s : string) : bool :=
  match s with
  | EmptyString => false
  | String c s' => Ascii.eqb c NUL || has_nul s'
  end.

(** The C string an array of bytes holds: the bytes before the first NUL. *)
Fixpoint c_str (s : string) : string :=
  match s with
  | EmptyString => EmptyString
  | String c s' => if Ascii.eqb c NUL then EmptyString else String c (c_str s')
  end.

(** Put a literal in front of an already concatenated token list. *)
Definition glue (a : string) (ts : tokens) : tokens :=
  match ts with
  | TStr b :: rest => TStr (a ++ b)%string :: rest
  | _ => TStr a :: ts
  end.

(** Translation phase 6: adjacent string literals become one literal. *)
Fixpoint phase6 (ts : tokens) : tokens :=
  match ts with
  | [] => []
  | TStr a :: rest => glue a (phase6 rest)
  | t :: rest => t :: phase6 rest
  end.

(** The string literal a juxtaposition of literals denotes, if it is one. *)
Definition literal (ts : tokens) : option string :=
  match phase6 ts with
  | [TStr s] => Some s
  | _ => None
  end.

Definition is_lit (t : token) : bool :=
  match t with TStr _ => true | _ => false end.

Definition is_operand (t : token) : bool :=
  match t with
  | TStr _ | TVal _ | TCout | TEndl => true
  | _ => false
  end.

(** The operands of [e1 << e2 << ... << en]; anything else (two operands
    without an operator between them, a dangling [<<], a brace) is a
    syntax error. *)
Fixpoint operands (ts : tokens) : option (list token) :=
  match ts with
  | [] => None
  | t :: rest =>
      if is_operand t then
        match rest with
        | [] => Some [t]
        | TShl :: rest' => option_map (cons t) (operands rest')
        | _ => None
        end
      else None
  end.

(** [stream << t].  A string literal decays to a [const char] pointer and
    is written up to its first NUL. *)
Definition insert (t : token) (out : ostream) : option ostream :=
  match t with
  | TStr s => Some (out ++ c_str s)%string
  | TVal s => Some (out ++ s)%string
  | TEndl => Some (out ++ LF)%string
  | _ => None
  end.

Fixpoint insert_all (ops : list token) (out : ostream) : option ostream :=
  match ops with
  | [] => Some out
  | t :: ops' =>
      match insert t out with
      | Some out' => insert_all ops' out'
      | None => None
      end
  end.

(** An expression whose literals are already concatenated. *)
Definition eval_parsed (ts : tokens) (out : ostream) : option (value * ostream) :=
  match operands ts with
  | Some (TCout :: ops) => option_map (pair VStream) (insert_all ops out)
  | Some [TStr s] => Some (VStr s, out)
  | Some [TVal s] => Some (VVal s, out)
  | _ => None
  end.

(** What [std::cout << ts] appends to the stream. *)
Definition inserted (ts : tokens) (out : ostream) : option ostream :=
  match operands (phase6 ts) with
  | Some ops => insert_all ops out
  | None => None
  end.

Definition eval_expr (ts : tokens) (out : ostream) : option (value * ostream) :=
  eval_parsed (phase6 ts) out.

(** The expression [e] of the tokens [e ; }] that end a one-statement block. *)
Fixpoint block_body (ts : tokens) : option tokens :=
  match ts with
  | [] => None
  | t :: rest =>
      match t, rest with
      | TSemi, [TRBrace] => Some []
      | _, _ => option_map (cons t) (block_body rest)
      end
  end.

(** Run the statement [{ e ; }], the shape every print macro expands to when
    its argument holds no [;] and no brace.  Blocks of several statements
    are not modelled and get [None] like a block that does not compile; the
    statements below that conclude [None] do so for blocks C++ rejects. *)
Definition exec (ts : tokens) (out : ostream) : option ostream :=
  match phase6 ts with
  | TLBrace :: rest =>
      match block_body rest with
      | Some body => option_map snd (eval_parsed body out)
      | None => None
      end
  | _ => None
  end.

(** The argument [f1 << f2 << ... << fn] made of string literals. *)
Definition chain (fs : list string) : tokens :=
  match fs with
  | [] => []
  | f :: fs' => TStr f :: flat_map (fun g => [TShl; TStr g]) fs'
  end.

End Cpp.

Import Cpp.

(** ** The macros of the header *)

Definition ESC : ascii := "027".

Definition BOLD : tokens := [TStr "1"].
Definition UNDRL : tokens := [TStr "4"].

Definition FGRED : tokens := [TStr "31"].
Definition FGGREEN : tokens := [TStr "32"].
Definition FGYELLOW : tokens := [TStr "33"].
Definition FGBLUE : tokens := [TStr "34"].
Definition FGDEFAULT : tokens := [TStr "39"].
Definition BGRED : tokens := [TStr "41"].
Definition BGGREEN : tokens := [TStr "42"].
Definition BGYELLOW : tokens := [TStr "43"].
Definition BGBLUE : tokens := [TStr "44"].
Definition BGDEFAULT : tokens := [TStr "49"].

Definition MOD (x : tokens) : tokens := [TStr (String ESC "[")] ++ x ++ [TStr "m"].
Definition RST : tokens := MOD [TStr "0"].

Definition B_MOD_RED (x : tokens) : tokens := MOD BOLD ++ MOD FGRED ++ x ++ RST.
Definition B_MOD_GREEN (x : tokens) : tokens := MOD BOLD ++ MOD FGGREEN ++ x ++ RST.
Definition B_MOD_YELLOW (x : tokens) : tokens := MOD BOLD ++ MOD FGYELLOW ++ x ++ RST.
Definition B_MOD_BLUE (x : tokens) : tokens := MOD BOLD ++ MOD FGBLUE ++ x ++ RST.
Definition MOD_RED (x : tokens) : tokens := MOD FGRED ++ x ++ RST.
Definition MOD_GREEN (x : tokens) : tokens := MOD FGGREEN ++ x ++ RST.
Definition MOD_YELLOW (x : tokens) : tokens := MOD FGYELLOW ++ x ++ RST.
Definition MOD_BLUE (x : tokens) : tokens := MOD FGBLUE ++ x ++ RST.

Definition PRINT_BRED (va : tokens) : tokens :=
  [TLBrace; TCout; TShl] ++ B_MOD_RED va ++ [TShl; TEndl; TSemi; TRBrace].
Definition PRINT_BGREEN (va : tokens) : tokens :=
  [TLBrace; TCout; TShl] ++ B_MOD_GREEN va ++ [TShl; TEndl; TSemi; TRBrace].
Definition PRINT_BBLUE (va : tokens) : tokens :=
  [TLBrace; TCout; TShl] ++ B_MOD_BLUE va ++ [TShl; TEndl; TSemi; TRBrace].

Definition PRINT_RED (va : tokens) : tokens :=
  [TLBrace; TCout; TShl] ++ MOD_RED va ++ [TShl; TEndl; TSemi; TRBrace].
Definition PRINT_GREEN (va : tokens) : tokens :=
  [TLBrace; TCout; TShl] ++ MOD_GREEN va ++ [TShl; TEndl; TSemi; TRBrace].
Definition PRINT_BLUE (va : tokens) : tokens :=
  [TLBrace; TCout; TShl] ++ MOD_BLUE va ++ [TShl; TEndl; TSemi; TRBrace].
Definition PRINT (va : tokens) : tokens :=
  [TLBrace; TCout; TShl] ++ va ++ [TShl; TEndl; TSemi; TRBrace].

(** ** The vocabulary of the specification, tied to the macros *)

Inductive Color : Type := Red | Green | Yellow | Blue.

Inductive StyleAttribute : Type :=
| Bold | Underline
| ForegroundRed | ForegroundGreen | ForegroundYellow | ForegroundBlue
| ForegroundDefault
| BackgroundRed | BackgroundGreen | BackgroundYellow | BackgroundBlue
| BackgroundDefault
| Reset.

Definition foreground (c : Color) : StyleAttribute :=
  match c with
  | Red => ForegroundRed
  | Green => ForegroundGreen
  | Yellow => ForegroundYellow
  | Blue => ForegroundBlue
  end.

(** The macro that holds the code of an attribute.  The header has no name
    for the reset code: it is the literal inside [RST]. *)
Definition attr_macro (a : StyleAttribute) : tokens :=
  match a with
  | Bold => BOLD
  | Underline => UNDRL
  | ForegroundRed => FGRED
  | ForegroundGreen => FGGREEN
  | ForegroundYellow => FGYELLOW
  | ForegroundBlue => FGBLUE
  | ForegroundDefault => FGDEFAULT
  | BackgroundRed => BGRED
  | BackgroundGreen => BGGREEN
  | BackgroundYellow => BGYELLOW
  | BackgroundBlue => BGBLUE
  | BackgroundDefault => BGDEFAULT
  | Reset => [TStr "0"]
  end.

(** [MOD(a1) ... MOD(an) x RST], the pattern every style macro of the header
    is written in. *)
Definition styled_tokens (attrs : list StyleAttribute) (x : tokens) : tokens :=
  flat_map (fun a => MOD (attr_macro a)) attrs ++ x ++ RST.

Definition attributes (bold : bool) (c : Color) : list StyleAttribute :=
  if bold then [Bold; foreground c] else [foreground c].

(** The eight style macros, by boldness and colour. *)
Definition style_macro (bold : bool) (c : Color) : tokens -> tokens :=
  match bold, c with
  | true, Red => B_MOD_RED
  | true, Green => B_MOD_GREEN
  | true, Yellow => B_MOD_YELLOW
  | true, Blue => B_MOD_BLUE
  | false, Red => MOD_RED
  | false, Green => MOD_GREEN
  | false, Yellow => MOD_YELLOW
  | false, Blue => MOD_BLUE
  end.

(** The coloured print macros, by boldness and colour.  The header defines
    neither a [PRINT_BYELLOW] nor a [PRINT_YELLOW]. *)
Definition print_macro (bold : bool) (c : Color) : option (tokens -> tokens) :=
  match bold, c with
  | true, Red => Some PRINT_BRED
  | true, Green => Some PRINT_BGREEN
  | true, Blue => Some PRINT_BBLUE
  | false, Red => Some PRINT_RED
  | false, Green => Some PRINT_GREEN
  | false, Blue => Some PRINT_BLUE
  | _, Yellow => None
  end.

(** The contract in the words of the specification, to compare the macros
    with. *)
Module Spec.

Definition cat (ss : list string) : string := fold_right String.append "" ss.

Definition code (a : StyleAttribute) : string :=
  match a with
  | Bold => "1"
  | Underline => "4"
  | ForegroundRed => "31"
  | ForegroundGreen => "32"
  | ForegroundYellow => "33"
  | ForegroundBlue => "34"
  | ForegroundDefault => "39"
  | BackgroundRed => "41"
  | BackgroundGreen => "42"
  | BackgroundYellow => "43"
  | BackgroundBlue => "44"
  | BackgroundDefault => "49"
  | Reset => "0"
  end.

Definition escape (a : StyleAttribute) : string :=
  String ESC ("[" ++ code a ++ "m")%string.

Definition styled (attrs : list StyleAttribute) (payload : string) : string :=
  (cat (map escape attrs) ++ payload ++ escape Reset)%string.

Definition printLine (text : string) (out : ostream) : ostream :=
  (out ++ text ++ LF)%string.

Definition printPlain (payload : string) (out : ostream) : ostream :=
  printLine payload out.

End Spec.

(** ** Escape sequences in a byte string *)

Fixpoint has_esc (s : string) : bool :=
  match s with
  | EmptyString => false
  | String c s' => Ascii.eqb c ESC || has_esc s'
  end.

(** The text up to the first [m]. *)
Fixpoint sgr_param (s : string) : option string :=
  match s with
  | EmptyString => None
  | String c s' =>
      if Ascii.eqb c "m" then Some EmptyString
      else option_map (String c) (sgr_param s')
  end.

(** The code of the sequence whose ESC byte has just been read. *)
Definition csi_code (s : string) : option string :=
  match s with
  | String "[" s' => sgr_param s'
  | _ => None
  end.

(** One entry for every ESC byte of [s]: the code of the sequence it starts,
    or [None] when what follows is not [[ code m]. *)
Fixpoint emitted_codes (s : string) : list (option string) :=
  match s with
  | EmptyString => []
  | String c s' =>
      if Ascii.eqb c ESC then csi_code s' :: emitted_codes s'
      else emitted_codes s'
  end.

Definition used_codes : list (option string) :=
  [Some "1"; Some "31"; Some "32"; Some "33"; Some "34"; Some "0"].

Definition unused_codes : list (option string) :=
  [Some "4"; Some "39"; Some "41"; Some "42"; Some "43"; Some "44"; Some "49"].

(** ** Arguments that are not only string literals *)




(** ** What a terminal shows *)

(** The text left when every sequence from an ESC byte to the next [m] is
    taken out; [in_seq] tells that such a sequence is being skipped. *)
Fixpoint visible_from (in_seq : bool) (s : string) : string :=
  match s with
  | EmptyString => EmptyString
  | String c s' =>
      if in_seq then visible_from (negb (Ascii.eqb c "m")) s'
      else if Ascii.eqb c ESC then visible_from true s'
           else String c (visible_from false s')
  end.

Definition visible (s : string) : string := visible_from false s.

(** ** Strings *)

Section Strings.

Lemma append_assoc (a b c : string) :
  ((a ++ b) ++ c = a ++ (b ++ c))%string.
Proof.
  induction a as [|ch a IH]; simpl; [reflexivity | now rewrite IH].
Qed.

Lemma append_nil_r (a : string) : (a ++ "")%string = a.
Proof.
  induction a as [|ch a IH]; simpl; [reflexivity | now rewrite IH].
Qed.

Lemma c_str_clean (a b : string) :
  has_nul a = false -> c_str (a ++ b) = (a ++ c_str b)%string.
Proof.
  induction a as [|ch a IH]; simpl; [reflexivity|].
  destruct (Ascii.eqb ch NUL); simpl; [discriminate|].
  intros H. now rewrite (IH H).
Qed.

Lemma c_str_cut (a b : string) :
  has_nul a = true -> c_str (a ++ b) = c_str a.
Proof.
  induction a as [|ch a IH]; simpl; [discriminate|].
  destruct (Ascii.eqb ch NUL); simpl; [reflexivity|].
  intros H. now rewrite (IH H).
Qed.

Lemma c_str_id (a : string) : has_nul a = false -> c_str a = a.
Proof.
  intros H. rewrite <- (append_nil_r a) at 1.
  rewrite (c_str_clean a ""%string H). apply append_nil_r.
Qed.

Lemma has_nul_app (a b : string) :
  has_nul (a ++ b) = has_nul a || has_nul b.
Proof.
  induction a as [|ch a IH]; simpl; [reflexivity|].
  now rewrite IH, orb_assoc.
Qed.

Lemma map_c_str_id (fs : list string) :
  Forall (fun f => has_nul f = false) fs -> map c_str fs = fs.
Proof.
  induction 1 as [|f fs Hf _ IH]; simpl; [reflexivity|].
  now rewrite (c_str_id f Hf), IH.
Qed.

Lemma last_no_nul (fs : list string) :
  Forall (fun f => has_nul f = false) fs -> has_nul (last fs ""%string) = false.
Proof.
  induction 1 as [|f fs Hf Hfs IH]; [reflexivity|].
  destruct fs as [|g gs]; [exact Hf | exact IH].
Qed.

End Strings.

(** ** Literal concatenation *)

Section Phase6.

Lemma glue_glue (a b : string) (ts : tokens) :
  glue a (glue b ts) = glue (a ++ b)%string ts.
Proof.
  destruct ts as [|[c| | | | | | |] ts]; simpl; try reflexivity.
  now rewrite append_assoc.
Qed.

Lemma phase6_lit_lit (a b : string) (ts : tokens) :
  phase6 (TStr a :: TStr b :: ts) = phase6 (TStr (a ++ b)%string :: ts).
Proof. simpl. apply glue_glue. Qed.

Lemma literal_eval (ts : tokens) (s : string) (out : ostream) :
  literal ts = Some s -> eval_expr ts out = Some (VStr s, out).
Proof.
  unfold literal, eval_expr, eval_parsed.
  destruct (phase6 ts) as [|[c| | | | | | |] [|t r]]; try discriminate.
  intros [= ->]. reflexivity.
Qed.

Lemma literal_MOD_cons (e : string) (ts : tokens) (s : string) :
  literal ts = Some s ->
  literal (MOD [TStr e] ++ ts) = Some (String ESC ("[" ++ e ++ "m" ++ s))%string.
Proof.
  unfold literal. simpl.
  destruct (phase6 ts) as [|[c| | | | | | |] [|t r]]; try discriminate.
  intros [= ->]. reflexivity.
Qed.

Lemma phase6_app_l (xs ys : tokens) :
  phase6 (xs ++ ys) = phase6 (phase6 xs ++ ys).
Proof.
  induction xs as [|x xs IH]; [reflexivity|].
  destruct x; cbn [app phase6]; try (now rewrite IH).
  rewrite IH. destruct (phase6 xs) as [|t r]; [reflexivity|].
  destruct t; cbn [glue app phase6]; try reflexivity.
  now rewrite glue_glue.
Qed.

Lemma phase6_app_r (xs ys ys' : tokens) :
  phase6 ys = phase6 ys' -> phase6 (xs ++ ys) = phase6 (xs ++ ys').
Proof.
  intros H. induction xs as [|x xs IH]; [exact H|].
  destruct x; cbn [app phase6]; now rewrite IH.
Qed.

End Phase6.

(** ** Stream insertion *)

Section Streams.

Lemma glue_app (a : string) (xs : tokens) (t : token) (ys : tokens) :
  is_lit t = false -> glue a (xs ++ t :: ys) = glue a xs ++ t :: ys.
Proof.
  intros Ht. destruct xs as [|[c| | | | | | |] xs]; simpl; try reflexivity.
  destruct t; simpl; try reflexivity. discriminate.
Qed.

Lemma phase6_app (xs : tokens) (t : token) (ys : tokens) :
  is_lit t = false -> phase6 (xs ++ t :: ys) = phase6 xs ++ t :: phase6 ys.
Proof.
  intros Ht. induction xs as [|x xs IH]; simpl.
  - destruct t; simpl; try reflexivity. discriminate.
  - destruct x; rewrite IH; try reflexivity.
    now apply glue_app.
Qed.

Lemma block_body_app (body : tokens) :
  block_body (body ++ [TSemi; TRBrace]) = Some body.
Proof.
  induction body as [|t body IH]; [reflexivity|].
  change ((t :: body) ++ [TSemi; TRBrace]) with (t :: (body ++ [TSemi; TRBrace])).
  cbn [block_body]. rewrite IH. simpl.
  destruct t; try reflexivity.
  destruct body as [|[] [|? ?]]; reflexivity.
Qed.

Lemma pair_ind (P : tokens -> Prop) :
  P [] -> (forall t, P [t]) -> (forall t u ts, P ts -> P (t :: u :: ts)) ->
  forall ts, P ts.
Proof.
  intros H0 H1 H2.
  assert (H : forall ts, P ts /\ forall t, P (t :: ts)).
  { induction ts as [|u ts [IHa IHb]]; split; auto. }
  intros ts. apply H.
Qed.

Lemma operands_endl (ts : tokens) :
  operands (ts ++ [TShl; TEndl]) =
  option_map (fun ops => ops ++ [TEndl]) (operands ts).
Proof.
  induction ts as [| t | t u ts IH] using pair_ind.
  - reflexivity.
  - simpl. destruct (is_operand t); reflexivity.
  - simpl. destruct (is_operand t); [|reflexivity].
    destruct u; try reflexivity.
    rewrite IH. destruct (operands ts); reflexivity.
Qed.

Lemma insert_all_endl (ops : list token) (out : ostream) :
  insert_all (ops ++ [TEndl]) out =
  option_map (fun o => (o ++ LF)%string) (insert_all ops out).
Proof.
  revert out. induction ops as [|t ops IH]; intros out; simpl; [reflexivity|].
  destruct (insert t out); [apply IH | reflexivity].
Qed.

(** Every print macro has the shape [{std::cout << x << std::endl;}]. *)
Lemma exec_cout_endl (x : tokens) (out : ostream) :
  exec ([TLBrace; TCout; TShl] ++ x ++ [TShl; TEndl; TSemi; TRBrace]) out =
  option_map (fun o => (o ++ LF)%string) (inserted x out).
Proof.
  unfold exec, inserted. simpl.
  rewrite (phase6_app x TShl [TEndl; TSemi; TRBrace] eq_refl). simpl.
  change (phase6 x ++ [TShl; TEndl; TSemi; TRBrace])
    with (phase6 x ++ [TShl; TEndl] ++ [TSemi; TRBrace]).
  rewrite app_assoc.
  change (TCout :: TShl :: (phase6 x ++ [TShl; TEndl]) ++ [TSemi; TRBrace])
    with ((TCout :: TShl :: phase6 x ++ [TShl; TEndl]) ++ [TSemi; TRBrace]).
  rewrite block_body_app.
  unfold eval_parsed. simpl. rewrite operands_endl.
  destruct (operands (phase6 x)) as [ops|]; simpl; [|reflexivity].
  rewrite insert_all_endl.
  destruct (insert_all ops out); reflexivity.
Qed.

Lemma insert_all_head (a b : string) (ts : tokens) (out : ostream) :
  has_nul a = false ->
  match operands (TStr (a ++ b)%string :: ts) with
  | Some ops => insert_all ops out
  | None => None
  end =
  match operands (TStr b :: ts) with
  | Some ops => insert_all ops (out ++ a)%string
  | None => None
  end.
Proof.
  intros Ha. simpl. destruct ts as [|t ts]; simpl.
  - now rewrite (c_str_clean a b Ha), append_assoc.
  - destruct t; try reflexivity.
    destruct (operands ts); simpl; [|reflexivity].
    now rewrite (c_str_clean a b Ha), append_assoc.
Qed.

(** A literal without NUL in front of another literal is written whole. *)
Lemma inserted_lit_lit (a b : string) (ts : tokens) (out : ostream) :
  has_nul a = false ->
  inserted (TStr a :: TStr b :: ts) out = inserted (TStr b :: ts) (out ++ a)%string.
Proof.
  intros Ha. unfold inserted. rewrite phase6_lit_lit. cbn [phase6].
  destruct (phase6 ts) as [|t r]; [now apply insert_all_head|].
  destruct t; cbn [glue]; try (now apply insert_all_head).
  rewrite append_assoc. now apply insert_all_head.
Qed.

Lemma inserted_lit_shl (a : string) (ts : tokens) (out : ostream) :
  inserted (TStr a :: TShl :: ts) out = inserted ts (out ++ c_str a)%string.
Proof.
  unfold inserted. simpl.
  destruct (operands (phase6 ts)); reflexivity.
Qed.

Lemma inserted_lit (a : string) (out : ostream) :
  inserted [TStr a] out = Some (out ++ c_str a)%string.
Proof. reflexivity. Qed.

Lemma inserted_tail (xs ys ys' : tokens) (out : ostream) :
  phase6 ys = phase6 ys' -> inserted (xs ++ ys) out = inserted (xs ++ ys') out.
Proof. intros H. unfold inserted. now rewrite (phase6_app_r xs ys ys' H). Qed.

(** The fragments after the first, then the literal that follows the
    argument: every fragment is cut at its first NUL, and the literal after
    the last fragment is lost with the rest of it when that fragment holds
    a NUL. *)
Lemma inserted_links (gs : list string) (f q : string) (out : ostream) :
  inserted (TStr f :: flat_map (fun g => [TShl; TStr g]) gs ++ [TStr q]) out =
  Some (out ++ Spec.cat (map c_str (f :: gs))
            ++ (if has_nul (last (f :: gs) "") then "" else c_str q))%string.
Proof.
  revert f out. induction gs as [|g gs IH]; intros f out.
  - cbn [flat_map app map Spec.cat fold_right last].
    change (inserted [TStr f; TStr q] out) with (Some (out ++ c_str (f ++ q))%string).
    rewrite append_nil_r. destruct (has_nul f) eqn:Hf.
    + now rewrite (c_str_cut f q Hf), append_nil_r.
    + now rewrite (c_str_clean f q Hf), (c_str_id f Hf).
  - cbn [flat_map app]. rewrite inserted_lit_shl, IH.
    change (last (f :: g :: gs) ""%string) with (last (g :: gs) ""%string).
    cbn [map Spec.cat fold_right]. now rewrite !append_assoc.
Qed.

(** A literal of the macro, the fragments, the reset literals. *)
Lemma inserted_chain (fs : list string) (p : string) (out : ostream) :
  has_nul p = false ->
  inserted (TStr p :: chain fs ++ RST) out =
  Some (out ++ p ++ Spec.cat (map c_str fs)
            ++ (if has_nul (last fs "") then "" else Spec.escape Reset))%string.
Proof.
  intros Hp.
  change (TStr p :: chain fs ++ RST) with ((TStr p :: chain fs) ++ RST).
  rewrite (inserted_tail _ RST [TStr (Spec.escape Reset)] out eq_refl).
  destruct fs as [|f gs].
  - cbn [chain app]. rewrite (inserted_lit_lit p _ _ out Hp), inserted_lit.
    cbn [map Spec.cat fold_right last has_nul].
    now rewrite append_assoc.
  - cbn [chain app]. rewrite (inserted_lit_lit p _ _ out Hp), inserted_links.
    now rewrite append_assoc.
Qed.

Lemma inserted_style_macro (bold : bool) (c : Color) (fs : list string) (out : ostream) :
  inserted (style_macro bold c (chain fs)) out =
  Some (out ++ Spec.cat (map Spec.escape (attributes bold c))
            ++ Spec.cat (map c_str fs)
            ++ (if has_nul (last fs "") then "" else Spec.escape Reset))%string.
Proof.
  destruct bold, c; cbn -[chain inserted append RST Spec.escape last has_nul c_str];
    repeat (rewrite inserted_lit_lit by reflexivity);
    rewrite inserted_chain by reflexivity;
    rewrite ?append_assoc; reflexivity.
Qed.

Lemma print_macro_shape (bold : bool) (c : Color) (m : tokens -> tokens) :
  print_macro bold c = Some m ->
  forall x, m x = [TLBrace; TCout; TShl] ++ style_macro bold c x
                    ++ [TShl; TEndl; TSemi; TRBrace].
Proof. intros Hm x. destruct bold, c; inversion Hm; reflexivity. Qed.

(** What a coloured print macro writes for a chain of string fragments,
    NUL bytes or not. *)
Lemma exec_print_macro_cut (bold : bool) (c : Color) (m : tokens -> tokens)
      (fs : list string) (out : ostream) :
  print_macro bold c = Some m ->
  exec (m (chain fs)) out =
  Some (out ++ Spec.cat (map Spec.escape (attributes bold c))
            ++ Spec.cat (map c_str fs)
            ++ (if has_nul (last fs "") then "" else Spec.escape Reset)
            ++ LF)%string.
Proof.
  intros Hm.
  rewrite (print_macro_shape bold c m Hm), exec_cout_endl, inserted_style_macro.
  cbn [option_map]. now rewrite !append_assoc.
Qed.

(** The same when no fragment holds a NUL. *)
Lemma exec_print_macro (bold : bool) (c : Color) (m : tokens -> tokens)
      (fs : list string) (out : ostream) :
  print_macro bold c = Some m ->
  Forall (fun f => has_nul f = false) fs ->
  exec (m (chain fs)) out =
  Some (Spec.printLine (Spec.styled (attributes bold c) (Spec.cat fs)) out).
Proof.
  intros Hm Hfs.
  rewrite (exec_print_macro_cut bold c m fs out Hm).
  rewrite (map_c_str_id fs Hfs), (last_no_nul fs Hfs).
  unfold Spec.printLine, Spec.styled. now rewrite !append_assoc.
Qed.

End Streams.

(** ** Scanning the output for escape sequences *)

Section Scan.

Lemma emitted_codes_clean (s t : string) :
  has_esc s = false -> emitted_codes (s ++ t) = emitted_codes t.
Proof.
  induction s as [|ch s IH]; simpl; [reflexivity|].
  destruct (Ascii.eqb ch ESC); simpl; [discriminate | exact IH].
Qed.

Lemma emitted_codes_styled (bold : bool) (c : Color) (payload : string) :
  has_esc payload = false ->
  emitted_codes (Spec.styled (attributes bold c) payload) =
  map (fun a => Some (Spec.code a)) (attributes bold c ++ [Reset]).
Proof.
  intros H. destruct bold, c; cbn -[emitted_codes];
    cbn [emitted_codes Ascii.eqb Bool.eqb ESC];
    cbn; rewrite (emitted_codes_clean _ _ H); reflexivity.
Qed.

Lemma has_esc_app (a b : string) :
  has_esc (a ++ b) = has_esc a || has_esc b.
Proof.
  induction a as [|ch a IH]; simpl; [reflexivity|].
  now rewrite IH, orb_assoc.
Qed.

Lemma has_esc_c_str (a : string) : has_esc a = false -> has_esc (c_str a) = false.
Proof.
  induction a as [|ch a IH]; simpl; [reflexivity|].
  destruct (Ascii.eqb ch ESC) eqn:E; simpl; [discriminate|].
  intros H. destruct (Ascii.eqb ch NUL); simpl; [reflexivity|].
  now rewrite E, (IH H).
Qed.

Lemma has_esc_cut (fs : list string) :
  Forall (fun f => has_esc f = false) fs ->
  has_esc (Spec.cat (map c_str fs)) = false.
Proof.
  induction 1 as [|f fs Hf _ IH]; [reflexivity|].
  change (Spec.cat (map c_str (f :: fs)))
    with (c_str f ++ Spec.cat (map c_str fs))%string.
  now rewrite has_esc_app, (has_esc_c_str f Hf), IH.
Qed.

(** The codes in the line a coloured print macro writes for fragments
    without ESC: those of the macro, and the reset unless it was cut off. *)
Lemma emitted_codes_print (bold : bool) (c : Color) (fs : list string) :
  Forall (fun f => has_esc f = false) fs ->
  emitted_codes (Spec.cat (map Spec.escape (attributes bold c))
                   ++ Spec.cat (map c_str fs)
                   ++ (if has_nul (last fs "") then "" else Spec.escape Reset)
                   ++ LF) =
  map (fun a => Some (Spec.code a)) (attributes bold c)
    ++ (if has_nul (last fs "") then [] else [Some "0"%string]).
Proof.
  intros Hfs. pose proof (has_esc_cut fs Hfs) as Hp. revert Hp.
  generalize (Spec.cat (map c_str fs)). intros p Hp.
  destruct (has_nul (last fs "")); destruct bold, c; simpl;
    rewrite (emitted_codes_clean _ _ Hp); reflexivity.
Qed.

End Scan.

(** ** The contract of the style macros *)

Lemma style_macro_pattern (bold : bool) (c : Color) (x : tokens) :
  style_macro bold c x = styled_tokens (attributes bold c) x.
Proof. destruct bold, c; reflexivity. Qed.

Lemma literal_styled_tokens (attrs : list StyleAttribute) (payload : string) :
  literal (styled_tokens attrs [TStr payload]) = Some (Spec.styled attrs payload).
Proof.
  unfold styled_tokens, Spec.styled.
  induction attrs as [|a attrs IH]; [reflexivity|].
  cbn [flat_map map Spec.cat fold_right]. rewrite <- app_assoc.
  replace (attr_macro a) with [TStr (Spec.code a)] by (destruct a; reflexivity).
  rewrite (literal_MOD_cons _ _ _ IH). unfold Spec.escape.
  cbn [String.append]. now rewrite !append_assoc.
Qed.

(** C1: for every attribute sequence and payload, the composition
    [MOD(a1) ... MOD(an) payload RST] denotes the string made of the escape
    sequence of every attribute in order, then the payload, then the reset
    sequence; the eight style macros are the instances [Bold, colour] and
    [colour]; [B_MOD_RED("hi")] is ESC[1m ESC[31m hi ESC[0m; and evaluating
    the composition leaves the output stream as it was. *)
Theorem styled_is_escapes_payload_reset :
  (forall (attrs : list StyleAttribute) (payload : string) (out : ostream),
      literal (styled_tokens attrs [TStr payload]) =
        Some (Spec.cat (map Spec.escape attrs) ++ payload ++ Spec.escape Reset)%string
      /\ eval_expr (styled_tokens attrs [TStr payload]) out =
        Some (VStr (Spec.cat (map Spec.escape attrs) ++ payload ++ Spec.escape Reset)%string,
              out))
  /\ (forall (bold : bool) (c : Color) (x : tokens),
         style_macro bold c x = styled_tokens (attributes bold c) x)
  /\ B_MOD_RED [TStr "hi"] = styled_tokens [Bold; ForegroundRed] [TStr "hi"]
  /\ literal (styled_tokens [Bold; ForegroundRed] [TStr "hi"]) =
       Some (String ESC "[1m" ++ String ESC "[31m" ++ "hi" ++ String ESC "[0m")%string.
Proof.
  split; [|split; [exact style_macro_pattern | split; reflexivity]].
  intros attrs payload out.
  pose proof (literal_styled_tokens attrs payload) as H.
  split; [exact H | exact (literal_eval _ _ out H)].
Qed.

(** C2: for each of the thirteen attributes, the macro holding its code is
    the literal of the table (Bold 1, Underline 4, foreground 31/32/33/34/39,
    background 41/42/43/44/49, Reset 0), and [MOD] of it denotes the bytes
    ESC, "[", the code, "m". *)
Theorem escape_table :
  (forall a : StyleAttribute,
      attr_macro a = [TStr (Spec.code a)]
      /\ literal (MOD (attr_macro a)) =
           Some (String ESC ("[" ++ Spec.code a ++ "m"))%string)
  /\ map attr_macro
       [Bold; Underline;
        ForegroundRed; ForegroundGreen; ForegroundYellow; ForegroundBlue;
        ForegroundDefault;
        BackgroundRed; BackgroundGreen; BackgroundYellow; BackgroundBlue;
        BackgroundDefault; Reset]
     = map (fun code => [TStr code])
       ["1"; "4"; "31"; "32"; "33"; "34"; "39"; "41"; "42"; "43"; "44"; "49"; "0"]
  /\ RST = MOD (attr_macro Reset).
Proof.
  split; [|split; reflexivity].
  intros a; destruct a; split; reflexivity.
Qed.

(** C7: evaluating a style composition gives one and the same string
    whatever the state of the output stream, so two evaluations with the
    same arguments agree byte for byte, and it leaves the stream as it
    found it. *)
Theorem styled_pure (attrs : list StyleAttribute) (payload : string) :
  exists s : string,
    forall out1 out2 : ostream,
      eval_expr (styled_tokens attrs [TStr payload]) out1 = Some (VStr s, out1)
      /\ eval_expr (styled_tokens attrs [TStr payload]) out2 = Some (VStr s, out2).
Proof.
  exists (Spec.styled attrs payload). intros out1 out2.
  pose proof (literal_styled_tokens attrs payload) as H.
  split; apply literal_eval; exact H.
Qed.

(** C8: with no attribute at all the composition is the payload followed by
    [RST]: for "x" it denotes "x" ESC "[0m". *)
Theorem styled_no_attribute :
  styled_tokens [] [TStr "x"] = [TStr "x"] ++ RST
  /\ literal (styled_tokens [] [TStr "x"]) = Some ("x" ++ String ESC "[0m")%string.
Proof. split; reflexivity. Qed.

(** C9: for every colour, the bold style macro is [MOD(BOLD)] in front of the
    unbolded one, and for a string payload the string it denotes is the Bold
    escape sequence followed by the string the unbolded macro denotes. *)
Theorem bold_is_bold_prefix (c : Color) :
  (forall x : tokens, style_macro true c x = MOD BOLD ++ style_macro false c x)
  /\ (forall payload : string,
         exists s : string,
           literal (style_macro false c [TStr payload]) = Some s
           /\ literal (style_macro true c [TStr payload]) =
                Some (Spec.escape Bold ++ s)%string).
Proof.
  split.
  - intros x; destruct c; reflexivity.
  - intros payload. exists (Spec.styled [foreground c] payload).
    rewrite !style_macro_pattern.
    split; [apply literal_styled_tokens|].
    cbn [attributes]. rewrite literal_styled_tokens. reflexivity.
Qed.

(** ** The contract of the print macros *)

(** C3, as stated: one print macro for each of the eight combinations of
    boldness and colour.  It fails at yellow, bold or not. *)
Lemma no_yellow_print_macro :
  ~ (forall (bold : bool) (c : Color),
        exists m : tokens -> tokens,
          print_macro bold c = Some m
          /\ forall (fs : list string) (out : ostream),
               exec (m (chain fs)) out =
               Some (Spec.printLine
                       (Spec.styled (attributes bold c) (Spec.cat fs)) out)).
Proof.
  intros H. destruct (H true Yellow) as [m [Hm _]]. discriminate Hm.
Qed.

(** The claim also fails where a fragment holds a NUL byte: the stream is
    given a C string, so [PRINT_RED("a\0b")] writes ESC[31m a and a line
    feed, without the b and without the reset sequence. *)
Example print_red_nul_cut :
  exec (PRINT_RED [TStr ("a" ++ String NUL "b")]) "" =
    Some (String ESC "[31m" ++ "a" ++ LF)%string
  /\ exec (PRINT_RED [TStr ("a" ++ String NUL "b")]) "" <>
    Some (Spec.printLine (Spec.styled [ForegroundRed] ("a" ++ String NUL "b")) "").
Proof. split; [reflexivity | discriminate]. Qed.

(** C3, amended: there are six print macros, one for each combination of
    boldness and a colour among red, green and blue (none for yellow), and
    each of them, given a chain of string fragments none of which holds a
    NUL byte, writes what
    [printLine(styled(attributes, fragments concatenated))] writes, with
    attributes [Bold, colour] for the bold macros and [colour] for the
    others. *)
Theorem print_macros_six (bold : bool) (c : Color) :
  (print_macro bold c = None <-> c = Yellow)
  /\ (forall m : tokens -> tokens,
         print_macro bold c = Some m ->
         forall (fs : list string) (out : ostream),
           Forall (fun f => has_nul f = false) fs ->
           exec (m (chain fs)) out =
           Some (Spec.printLine
                   (Spec.styled (if bold then [Bold; foreground c] else [foreground c])
                                (Spec.cat fs)) out)).
Proof.
  split.
  - destruct bold, c; simpl; split; intros H; try reflexivity; discriminate H.
  - intros m Hm fs out Hfs. exact (exec_print_macro bold c m fs out Hm Hfs).
Qed.

Lemma print_macros_six_witness :
  print_macro true Green = Some PRINT_BGREEN
  /\ Forall (fun f => has_nul f = false) ["789"; "258"; "fgh"]%string
  /\ exec (PRINT_BGREEN (chain ["789"; "258"; "fgh"])) "" =
     Some (String ESC "[1m" ++ String ESC "[32m" ++ "789258fgh"
             ++ String ESC "[0m" ++ LF)%string.
Proof.
  assert (H : Forall (fun f => has_nul f = false) ["789"; "258"; "fgh"]%string)
    by (repeat constructor).
  split; [reflexivity | split; [exact H|]].
  exact (proj2 (print_macros_six true Green) PRINT_BGREEN eq_refl
               ["789"; "258"; "fgh"]%string ""%string H).
Defined.

(** C4: [PRINT_BRED("123")] appends to standard output exactly the bytes
    ESC[1m ESC[31m 123 ESC[0m and a line feed. *)
Theorem print_bred_123 (out : ostream) :
  exec (PRINT_BRED [TStr "123"]) out =
  Some (out ++ (String ESC "[1m" ++ String ESC "[31m" ++ "123"
                  ++ String ESC "[0m" ++ LF))%string.
Proof.
  refine (exec_print_macro true Red PRINT_BRED ["123"%string] out eq_refl _).
  repeat constructor.
Qed.

(** C5, as stated: a fragment sequence writes what the concatenated string
    writes.  It fails when a fragment before the last holds a NUL byte:
    [PRINT_GREEN("a\0b" << "c")] writes ESC[32m a c ESC[0m and a line feed,
    [PRINT_GREEN("a\0bc")] writes ESC[32m a and a line feed. *)
Lemma print_fragments_nul_differ :
  exec (PRINT_GREEN (chain ["a" ++ String NUL "b"; "c"]%string)) "" =
    Some (String ESC "[32m" ++ "ac" ++ String ESC "[0m" ++ LF)%string
  /\ exec (PRINT_GREEN [TStr (Spec.cat ["a" ++ String NUL "b"; "c"]%string)]) "" =
    Some (String ESC "[32m" ++ "a" ++ LF)%string
  /\ exec (PRINT_GREEN (chain ["a" ++ String NUL "b"; "c"]%string)) "" <>
     exec (PRINT_GREEN [TStr (Spec.cat ["a" ++ String NUL "b"; "c"]%string)]) "".
Proof. split; [reflexivity | split; [reflexivity | discriminate]]. Qed.

Lemma cut_of_cat (fs : list string) :
  Forall (fun f => has_nul f = false) (removelast fs) ->
  c_str (Spec.cat fs) = Spec.cat (map c_str fs)
  /\ has_nul (Spec.cat fs) = has_nul (last fs ""%string).
Proof.
  induction fs as [|f fs IH]; [split; reflexivity|].
  destruct fs as [|g gs].
  - intros _. cbn [map Spec.cat fold_right last].
    now rewrite !append_nil_r.
  - intros H. change (removelast (f :: g :: gs)) with (f :: removelast (g :: gs)) in H.
    inversion H as [|? ? Hf Hrest]; subst.
    destruct (IH Hrest) as [IH1 IH2].
    change (last (f :: g :: gs) ""%string) with (last (g :: gs) ""%string).
    change (Spec.cat (f :: g :: gs)) with (f ++ Spec.cat (g :: gs))%string.
    change (map c_str (f :: g :: gs)) with (c_str f :: map c_str (g :: gs)).
    change (Spec.cat (c_str f :: map c_str (g :: gs)))
      with (c_str f ++ Spec.cat (map c_str (g :: gs)))%string.
    split.
    + now rewrite (c_str_clean _ _ Hf), (c_str_id f Hf), IH1.
    + now rewrite has_nul_app, Hf, IH2.
Qed.

(** C5, amended: every coloured print macro writes, for a chain of string
    fragments of which none but the last holds a NUL byte, exactly what it
    writes for the one string that is their concatenation; so for
    "789" << "258" and "789258". *)
Theorem print_fragments_concat (bold : bool) (c : Color) (m : tokens -> tokens)
        (fs : list string) (out : ostream) :
  print_macro bold c = Some m ->
  Forall (fun f => has_nul f = false) (removelast fs) ->
  exec (m (chain fs)) out = exec (m [TStr (Spec.cat fs)]) out
  /\ exec (m (chain fs)) out <> None
  /\ exec (m [TStr "789"; TShl; TStr "258"]) out = exec (m [TStr "789258"]) out.
Proof.
  intros Hm Hfs.
  pose proof (exec_print_macro_cut bold c m fs out Hm) as E.
  pose proof (exec_print_macro_cut bold c m [Spec.cat fs] out Hm) as E1.
  pose proof (exec_print_macro_cut bold c m ["789"; "258"]%string out Hm) as E2.
  pose proof (exec_print_macro_cut bold c m ["789258"]%string out Hm) as E3.
  cbn [chain flat_map app] in E1, E2, E3.
  destruct (cut_of_cat fs Hfs) as [C1 C2].
  cbn [map Spec.cat fold_right last] in E1.
  rewrite append_nil_r, C1, C2 in E1.
  repeat split.
  - now rewrite E, E1.
  - rewrite E. discriminate.
  - now rewrite E2, E3.
Qed.

Lemma print_fragments_concat_witness :
  print_macro true Green = Some PRINT_BGREEN
  /\ Forall (fun f => has_nul f = false) (removelast ["789"; "258"]%string)
  /\ exec (PRINT_BGREEN (chain ["789"; "258"])) "" =
     exec (PRINT_BGREEN [TStr "789258"]) "".
Proof.
  assert (H : Forall (fun f => has_nul f = false) (removelast ["789"; "258"]%string))
    by (repeat constructor).
  split; [reflexivity | split; [exact H|]].
  exact (proj1 (print_fragments_concat true Green PRINT_BGREEN
                  ["789"; "258"]%string ""%string eq_refl H)).
Defined.

(** C6: [PRINT("abc")] appends to standard output the bytes abc and a line
    feed, which is [printPlain("abc")], and no escape sequence. *)
Theorem print_plain_abc (out : ostream) :
  exec (PRINT [TStr "abc"]) out = Some (out ++ "abc" ++ LF)%string
  /\ exec (PRINT [TStr "abc"]) out = Some (Spec.printPlain "abc" out)
  /\ emitted_codes ("abc" ++ LF) = [].
Proof.
  unfold PRINT. rewrite exec_cout_endl, inserted_lit. simpl.
  unfold Spec.printPlain, Spec.printLine.
  rewrite append_assoc. repeat split.
Qed.

(** ** Which codes reach the terminal *)

Lemma shorthand_codes_used (bold : bool) (c : Color) :
  Forall (fun k => In k used_codes /\ ~ In k unused_codes)
         (map (fun a => Some (Spec.code a)) (attributes bold c ++ [Reset])).
Proof.
  assert (U : forall k, In k used_codes -> In k used_codes /\ ~ In k unused_codes).
  { intros k Hk. split; [exact Hk|].
    unfold used_codes, unused_codes in *. cbn [In] in *.
    intros H.
    repeat (destruct Hk as [<-|Hk]; [repeat (destruct H as [H|H]; [discriminate H|]); exact H|]).
    exact Hk. }
  destruct bold, c; cbn [attributes foreground app map Spec.code];
    repeat (apply Forall_cons; [apply U; unfold used_codes; cbn [In]; tauto|]);
    apply Forall_nil.
Qed.

(** C10: for a payload without ESC byte, every escape sequence in what a
    style macro denotes or a coloured print macro writes has one of the codes
    1, 31, 32, 33, 34, 0 and none of the codes 4, 39, 41, 42, 43, 44, 49;
    [PRINT] writes no escape sequence at all. *)
Theorem only_bold_colour_reset_emitted (x : string) (fs : list string) :
  has_esc x = false ->
  Forall (fun f => has_esc f = false) fs ->
  (forall (bold : bool) (c : Color),
      exists s : string,
        literal (style_macro bold c [TStr x]) = Some s
        /\ Forall (fun k => In k used_codes /\ ~ In k unused_codes)
                  (emitted_codes s))
  /\ (forall (bold : bool) (c : Color) (m : tokens -> tokens),
         print_macro bold c = Some m ->
         exists w : string,
           exec (m (chain fs)) "" = Some w
           /\ Forall (fun k => In k used_codes /\ ~ In k unused_codes)
                     (emitted_codes w))
  /\ (exists w : string,
         exec (PRINT [TStr x]) "" = Some w /\ emitted_codes w = []).
Proof.
  intros Hx Hfs. split; [|split].
  - intros bold c. exists (Spec.styled (attributes bold c) x).
    rewrite style_macro_pattern, literal_styled_tokens.
    split; [reflexivity|].
    rewrite (emitted_codes_styled bold c x Hx). apply shorthand_codes_used.
  - intros bold c m Hm. eexists.
    split; [exact (exec_print_macro_cut bold c m fs ""%string Hm)|].
    cbn [String.append]. rewrite (emitted_codes_print bold c fs Hfs).
    pose proof (shorthand_codes_used bold c) as U.
    rewrite map_app in U.
    destruct (has_nul (last fs "")); [|exact U].
    rewrite app_nil_r. exact (proj1 (proj1 (Forall_app _ _ _) U)).
  - exists (c_str x ++ LF)%string.
    split.
    + unfold PRINT. rewrite exec_cout_endl, inserted_lit. reflexivity.
    + now rewrite (emitted_codes_clean _ LF (has_esc_c_str x Hx)).
Qed.

Lemma only_bold_colour_reset_emitted_witness :
  has_esc "123" = false
  /\ Forall (fun f => has_esc f = false) ["789"; "258"]%string
  /\ (exists w : string,
         exec (PRINT_BLUE (chain ["789"; "258"])) "" = Some w
         /\ Forall (fun k => In k used_codes /\ ~ In k unused_codes)
                   (emitted_codes w)).
Proof.
  assert (H1 : has_esc "123" = false) by reflexivity.
  assert (H2 : Forall (fun f => has_esc f = false) ["789"; "258"]%string)
    by (repeat constructor).
  split; [exact H1 | split; [exact H2|]].
  exact (proj1 (proj2 (only_bold_colour_reset_emitted "123" ["789"; "258"]%string H1 H2))
               false Blue PRINT_BLUE eq_refl).
Defined.

(** ** The usage example in the header's closing comment *)

Example print_red_123 :
  exec (PRINT_RED [TStr "123"]) "" =
  Some (String ESC "[31m" ++ "123" ++ String ESC "[0m" ++ LF)%string.
Proof. reflexivity. Qed.

Example print_bblue_three_fragments :
  exec (PRINT_BBLUE [TStr "789"; TShl; TStr "258"; TShl; TStr "fgh"]) "" =
  Some (String ESC "[1m" ++ String ESC "[34m" ++ "789258fgh"
          ++ String ESC "[0m" ++ LF)%string.
Proof. reflexivity. Qed.

(** [PRINT_BGREEN(456)] is commented out there: a number between two string
    literals does not parse. *)
Example print_bgreen_number_rejected :
  exec (PRINT_BGREEN [TVal "456"]) "" = None
  /\ exec (PRINT [TVal "456"]) "" = Some ("456" ++ LF)%string.
Proof. split; reflexivity. Qed.

(** ** Payloads that are themselves made of several tokens *)

Section Composition.

Lemma literal_inv (x : tokens) (s : string) :
  literal x = Some s -> phase6 x = [TStr s].
Proof.
  unfold literal.
  destruct (phase6 x) as [|[c| | | | | | |] [|t r]]; try discriminate.
  now intros [= ->].
Qed.

Lemma literal_app (x y : tokens) (s t : string) :
  literal x = Some s -> literal y = Some t ->
  literal (x ++ y) = Some (s ++ t)%string.
Proof.
  intros Hx Hy. unfold literal.
  rewrite phase6_app_l, (literal_inv _ _ Hx). simpl.
  now rewrite (literal_inv _ _ Hy).
Qed.

Lemma literal_styled_any (attrs : list StyleAttribute) (x : tokens) (s : string) :
  literal x = Some s ->
  literal (styled_tokens attrs x) = Some (Spec.styled attrs s).
Proof.
  intros Hx. rewrite <- (literal_styled_tokens attrs s).
  unfold literal, styled_tokens.
  assert (E : phase6 (x ++ RST) = phase6 ([TStr s] ++ RST)).
  { rewrite phase6_app_l, (literal_inv _ _ Hx). reflexivity. }
  now rewrite (phase6_app_r _ _ _ E).
Qed.

End Composition.

(** X1: the payload of a style macro need not be one literal: whenever the
    argument concatenates to a string (juxtaposed literals, another macro's
    expansion), the macro denotes the escape sequences, that string and the
    reset sequence; with an empty argument it denotes the escape sequences
    alone. *)
Theorem style_macro_any_literal_payload
        (bold : bool) (c : Color) (x : tokens) (s : string) :
  literal x = Some s ->
  literal (style_macro bold c x) =
    Some (Spec.cat (map Spec.escape (attributes bold c)) ++ s ++ Spec.escape Reset)%string
  /\ literal (style_macro bold c []) =
    Some (Spec.cat (map Spec.escape (attributes bold c)) ++ Spec.escape Reset)%string.
Proof.
  intros Hx. rewrite !style_macro_pattern. split.
  - exact (literal_styled_any _ _ _ Hx).
  - destruct bold, c; reflexivity.
Qed.

Lemma style_macro_any_literal_payload_witness :
  literal [TStr "x = "; TStr "1"] = Some "x = 1"
  /\ literal (MOD_GREEN [TStr "x = "; TStr "1"]) =
     Some (String ESC "[32m" ++ "x = 1" ++ String ESC "[0m")%string.
Proof.
  split; [reflexivity|].
  exact (proj1 (style_macro_any_literal_payload
                  false Green [TStr "x = "; TStr "1"] "x = 1"%string eq_refl)).
Defined.

(** X2: a style macro inside the argument of another one is spliced in
    whole, its own reset included: the text that follows the inner macro
    comes after a reset sequence and before the outer reset, the outer
    escape sequences are not repeated. *)
Theorem style_macro_nested
        (bold bold' : bool) (c c' : Color) (before inner after : string) :
  literal (style_macro bold c
             ([TStr before] ++ style_macro bold' c' [TStr inner] ++ [TStr after])) =
  Some (Spec.cat (map Spec.escape (attributes bold c)) ++ before
        ++ (Spec.cat (map Spec.escape (attributes bold' c')) ++ inner
              ++ Spec.escape Reset)
        ++ after ++ Spec.escape Reset)%string.
Proof.
  rewrite (style_macro_pattern bold c).
  rewrite (literal_styled_any _ _
             (before ++ Spec.styled (attributes bold' c') inner ++ after)%string).
  - unfold Spec.styled. now rewrite !append_assoc.
  - apply (literal_app [TStr before]); [reflexivity|].
    apply literal_app; [|reflexivity].
    rewrite style_macro_pattern. apply literal_styled_tokens.
Qed.

(** ** Arguments with operands that are not string literals *)

Section Operands.






End Operands.



(** X4: with an empty argument list [PRINT] expands to [std::cout << <<
    std::endl], which is rejected, whereas every coloured print macro still
    runs and writes its escape sequences, the reset sequence and a line
    feed. *)
Theorem print_empty_argument
        (bold : bool) (c : Color) (m : tokens -> tokens) (out : ostream) :
  print_macro bold c = Some m ->
  exec (PRINT []) out = None
  /\ exec (m []) out =
     Some (out ++ Spec.cat (map Spec.escape (attributes bold c))
               ++ Spec.escape Reset ++ LF)%string.
Proof.
  intros Hm. split; [reflexivity|].
  exact (exec_print_macro_cut bold c m [] out Hm).
Qed.

Lemma print_empty_argument_witness :
  print_macro false Red = Some PRINT_RED
  /\ exec (PRINT []) "" = None
  /\ exec (PRINT_RED []) "" = Some (String ESC "[31m" ++ String ESC "[0m" ++ LF)%string.
Proof.
  split; [reflexivity|].
  exact (print_empty_argument false Red PRINT_RED ""%string eq_refl).
Defined.





(** ** What the written line looks like *)

Section Line.

Lemma emitted_codes_last (s r code : string) :
  csi_code r = Some code -> has_esc r = false ->
  exists l, emitted_codes (s ++ String ESC r) = l ++ [Some code].
Proof.
  intros Hc Hr. induction s as [|ch s [l IH]].
  - exists []. cbn [String.append emitted_codes app].
    replace (Ascii.eqb ESC ESC) with true by reflexivity.
    rewrite Hc. f_equal.
    rewrite <- (append_nil_r r). exact (emitted_codes_clean r ""%string Hr).
  - cbn [String.append emitted_codes]. destruct (Ascii.eqb ch ESC).
    + exists (csi_code (s ++ String ESC r) :: l). now rewrite IH.
    + exists l. exact IH.
Qed.

Lemma length_append (a b : string) :
  String.length (a ++ b) = String.length a + String.length b.
Proof. induction a as [|ch a IH]; simpl; [reflexivity | now rewrite IH]. Qed.

Lemma visible_clean (p t : string) :
  has_esc p = false -> visible_from false (p ++ t) = (p ++ visible_from false t)%string.
Proof.
  induction p as [|ch p IH]; simpl; [reflexivity|].
  destruct (Ascii.eqb ch ESC); simpl; [discriminate|].
  intros H. now rewrite (IH H).
Qed.

End Line.

(** X7: when the last fragment holds no NUL byte, then whatever else the
    fragments contain, ESC and NUL bytes included, the last escape sequence
    of the line a coloured print macro writes is the reset sequence: the
    colour does not carry over to later output. *)
Theorem print_ends_with_reset
        (bold : bool) (c : Color) (m : tokens -> tokens) (fs : list string) :
  print_macro bold c = Some m ->
  has_nul (last fs ""%string) = false ->
  exists (w : string) (l : list (option string)),
    exec (m (chain fs)) "" = Some w
    /\ emitted_codes w = l ++ [Some "0"%string].
Proof.
  intros Hm Hlast.
  destruct (emitted_codes_last
              (Spec.cat (map Spec.escape (attributes bold c)) ++ Spec.cat (map c_str fs))
              ("[0m" ++ LF) "0" eq_refl eq_refl)
    as [l Hl].
  eexists. exists l.
  split; [exact (exec_print_macro_cut bold c m fs ""%string Hm)|].
  rewrite Hlast, <- Hl. cbn [String.append]. now rewrite !append_assoc.
Qed.

Lemma print_ends_with_reset_witness :
  print_macro false Red = Some PRINT_RED
  /\ has_nul (last [String ESC "[44m"; "a" ++ String NUL "b"; "x"]%string ""%string) = false
  /\ exists (w : string) (l : list (option string)),
       exec (PRINT_RED (chain [String ESC "[44m"; "a" ++ String NUL "b"; "x"]%string)) ""
         = Some w
       /\ emitted_codes w = l ++ [Some "0"%string].
Proof.
  split; [reflexivity | split; [reflexivity|]].
  exact (print_ends_with_reset false Red PRINT_RED
           [String ESC "[44m"; "a" ++ String NUL "b"; "x"]%string eq_refl eq_refl).
Defined.

(** X8: for fragments without NUL byte, a coloured print macro lengthens the
    output stream by the length of the fragments plus a fixed number of
    bytes: 10 for an unbolded macro (colour sequence, reset sequence, line
    feed), 14 for a bold one. *)
Theorem print_length
        (bold : bool) (c : Color) (m : tokens -> tokens)
        (fs : list string) (out : ostream) :
  print_macro bold c = Some m ->
  Forall (fun f => has_nul f = false) fs ->
  exists out' : ostream,
    exec (m (chain fs)) out = Some out'
    /\ String.length out' =
       String.length out + String.length (Spec.cat fs) + (if bold then 14 else 10).
Proof.
  intros Hm Hfs. eexists. split; [exact (exec_print_macro bold c m fs out Hm Hfs)|].
  unfold Spec.printLine, Spec.styled.
  rewrite !length_append.
  destruct bold, c; try discriminate Hm; simpl; lia.
Qed.

Lemma print_length_witness :
  print_macro true Red = Some PRINT_BRED
  /\ Forall (fun f => has_nul f = false) ["123"%string]
  /\ exists out' : ostream,
       exec (PRINT_BRED (chain ["123"%string])) "" = Some out'
       /\ String.length out' = 0 + 3 + 14.
Proof.
  assert (H : Forall (fun f => has_nul f = false) ["123"%string])
    by (repeat constructor).
  split; [reflexivity | split; [exact H|]].
  exact (print_length true Red PRINT_BRED ["123"%string] ""%string eq_refl H).
Defined.

(** X9: when no fragment contains an ESC byte, taking the escape sequences
    out of the line a coloured print macro writes leaves the fragments, each
    up to its first NUL byte if it has one, concatenated, and the line
    feed. *)
Theorem print_visible_text
        (bold : bool) (c : Color) (m : tokens -> tokens) (fs : list string) :
  print_macro bold c = Some m ->
  Forall (fun f => has_esc f = false) fs ->
  exists w : string,
    exec (m (chain fs)) "" = Some w
    /\ visible w = (Spec.cat (map c_str fs) ++ LF)%string.
Proof.
  intros Hm Hfs. eexists.
  split; [exact (exec_print_macro_cut bold c m fs ""%string Hm)|].
  pose proof (has_esc_cut fs Hfs) as Hp.
  unfold visible. cbn [String.append].
  revert Hp. generalize (Spec.cat (map c_str fs)). intros p Hp.
  destruct (has_nul (last fs "")); destruct bold, c; try discriminate Hm; simpl;
    rewrite (visible_clean _ _ Hp); reflexivity.
Qed.

Lemma print_visible_text_witness :
  print_macro true Blue = Some PRINT_BBLUE
  /\ Forall (fun f => has_esc f = false) ["789"; "2" ++ String NUL "58"; "fgh"]%string
  /\ exists w : string,
       exec (PRINT_BBLUE (chain ["789"; "2" ++ String NUL "58"; "fgh"]%string)) "" = Some w
       /\ visible w = ("7892fgh" ++ LF)%string.
Proof.
  assert (H : Forall (fun f => has_esc f = false)
                     ["789"; "2" ++ String NUL "58"; "fgh"]%string)
    by (repeat constructor).
  split; [reflexivity | split; [exact H|]].
  exact (print_visible_text true Blue PRINT_BBLUE
           ["789"; "2" ++ String NUL "58"; "fgh"]%string eq_refl H).
Defined.

(** X10: a coloured print macro hands every operand to the stream as a C
    string.  Each fragment is written up to its first NUL byte, and the
    reset sequence, which is part of the same literal as the last fragment,
    is written only if that fragment holds no NUL: after
    [PRINT_RED("a\0b")] the terminal stays red. *)
Theorem print_nul_cut
        (bold : bool) (c : Color) (m : tokens -> tokens)
        (fs : list string) (out : ostream) :
  print_macro bold c = Some m ->
  exec (m (chain fs)) out =
  Some (out ++ Spec.cat (map Spec.escape (attributes bold c))
            ++ Spec.cat (map c_str fs)
            ++ (if has_nul (last fs "") then "" else Spec.escape Reset)
            ++ LF)%string.
Proof. exact (exec_print_macro_cut bold c m fs out). Qed.

Lemma print_nul_cut_witness :
  print_macro false Red = Some PRINT_RED
  /\ exec (PRINT_RED (chain ["a" ++ String NUL "b"]%string)) "" =
     Some (String ESC "[31m" ++ "a" ++ LF)%string.
Proof.
  split; [reflexivity|].
  exact (print_nul_cut false Red PRINT_RED ["a" ++ String NUL "b"]%string ""%string eq_refl).
Defined.
